(** * Hierarchical advisory path locking: [zero/locking.py]

    A shallow embedding of [PathLock] and [NodeLock] together with the
    properties of their acquire / retry / release life cycle and of the
    abort-request protocol.

    The Python objects are mutable and the locks live in the file system,
    so every method is a computation in a state-and-exception monad.  The
    state of a [NodeLock] method is the pair of the object ([self]) and the
    world; the state of a [PathLock] method is the pair of the path lock
    (with its list of node locks) and the world. *)

From stdpp Require Import gmap strings list.
From Stdlib Require Import Ascii.
From Stdlib Require Import ZArith Lia.

#[local] Set Warnings "-clear-no-such-hyp".

(** ** Exceptions and the monad *)

Inductive exn :=
| NodeLockedException   (* locking.NodeLockedException *)
| AlreadyLocked         (* portalocker.exceptions.AlreadyLocked *)
| AttributeError        (* reading an attribute that was never assigned *)
| IndexError            (* indexing an empty list *)
| OSError.              (* mkdir / open / remove on a wrong file-system state *)

#[global] Instance exn_eq_dec : EqDecision exn.
Proof. solve_decision. Defined.

Inductive result (A : Type) :=
| Ok (a : A)
| Raise (e : exn).
Arguments Ok {A} a.
Arguments Raise {A} e.

Definition M (S A : Type) : Type := S -> result A * S.

Definition ret {S A} (a : A) : M S A := fun s => (Ok a, s).

Definition raise {S A} (e : exn) : M S A := fun s => (Raise e, s).

Definition bind {S A B} (c : M S A) (k : A -> M S B) : M S B :=
  fun s =>
    match c s with
    | (Ok a, s') => k a s'
    | (Raise e, s') => (Raise e, s')
    end.

Definition gets {S A} (f : S -> A) : M S A := fun s => (Ok (f s), s).

Definition modify {S} (f : S -> S) : M S unit := fun s => (Ok tt, f s).

(** [try c] runs [c] and hands its outcome to the continuation, which is how
    a [try: ... except E: ...] block inspects what was raised. *)
Definition try {S A} (c : M S A) : M S (result A) :=
  fun s => let '(r, s') := c s in (Ok r, s').

Declare Scope py_scope.
Delimit Scope py_scope with py.
Notation "x <- c ;; k" := (bind c (fun x => k))
  (at level 100, c at next level, right associativity) : py_scope.
Notation "c ;; k" := (bind c (fun _ => k))
  (at level 100, right associativity) : py_scope.
Local Open Scope py_scope.

(** ** The world: lock files, abort-request markers, other processes

    [LOCKDIR] holds one file per inode; what matters of a file is the list
    of open descriptions that currently hold a [flock] on it.  A directory
    that does not exist is [None].  [ABORT_REQUEST_DIR] holds one empty
    marker file per inode. *)

Inductive owner :=
| Here (fd : nat)       (* a file handle opened by this process *)
| Elsewhere.            (* held by some other process *)

#[global] Instance owner_eq_dec : EqDecision owner.
Proof. solve_decision. Defined.

Record holder := { held_by : owner; held_ex : bool }.

Record FS := {
  lockdir : option (gmap Z (list holder));
  abortdir : option (gset Z)
}.

(** The log records what the process does that an observer could see; it
    is never read by the program. *)
Inductive event :=
| EvAttempt (file : Z) (flags : Z) (got : option nat)
| EvSleep (secs : Z)
| EvUnlock (file : Z) (fd : nat).

(** [others k] is what the other processes do to the file system while this
    one sleeps for the [k]-th time. *)
Record World := {
  fs : FS;
  others : nat -> FS -> FS;
  next_fd : nat;
  clock : nat;
  log : list event
}.

Definition with_fs (f : FS -> FS) (w : World) : World :=
  {| fs := f (fs w); others := others w; next_fd := next_fd w;
     clock := clock w; log := log w |}.

Definition emit (e : event) (w : World) : World :=
  {| fs := fs w; others := others w; next_fd := next_fd w;
     clock := clock w; log := log w ++ [e] |}.

(** *** [os] and [time] *)

Module os.

Definition lockdir_exists : M World bool :=
  gets (fun w => bool_decide (is_Some (lockdir (fs w)))).

Definition mkdir_lockdir : M World unit :=
  fun w =>
    match lockdir (fs w) with
    | Some _ => (Raise OSError, w)
    | None =>
        (Ok tt, with_fs (fun f => {| lockdir := Some ∅; abortdir := abortdir f |}) w)
    end.

Definition abortdir_exists : M World bool :=
  gets (fun w => bool_decide (is_Some (abortdir (fs w)))).

Definition mkdir_abortdir : M World unit :=
  fun w =>
    match abortdir (fs w) with
    | Some _ => (Raise OSError, w)
    | None =>
        (Ok tt, with_fs (fun f => {| lockdir := lockdir f; abortdir := Some ∅ |}) w)
    end.

(** [os.path.exists(ABORT_REQUEST_DIR + str(i))] *)
Definition marker_exists (i : Z) (f : FS) : bool :=
  match abortdir f with
  | Some s => bool_decide (i ∈ s)
  | None => false
  end.

(** [open(ABORT_REQUEST_DIR + str(i), "w").close()] *)
Definition touch_marker (i : Z) : M World unit :=
  fun w =>
    match abortdir (fs w) with
    | None => (Raise OSError, w)
    | Some s =>
        (Ok tt,
         with_fs (fun f => {| lockdir := lockdir f; abortdir := Some ({[ i ]} ∪ s) |}) w)
    end.

(** [os.remove(ABORT_REQUEST_DIR + str(i))] *)
Definition remove_marker (i : Z) : M World unit :=
  fun w =>
    if marker_exists i (fs w) then
      (Ok tt,
       with_fs (fun f => {| lockdir := lockdir f;
                            abortdir := (fun s => s ∖ {[ i ]}) <$> abortdir f |}) w)
    else (Raise OSError, w).

End os.

Module time.

(** [time.sleep(secs)]: the clock advances and the other processes run. *)
Definition sleep (secs : Z) : M World unit :=
  fun w =>
    (Ok tt,
     {| fs := others w (clock w) (fs w); others := others w;
        next_fd := next_fd w; clock := S (clock w);
        log := log w ++ [EvSleep secs] |}).

End time.

(** ** The try-lock primitive: [portalocker.Lock]

    The library is not part of the repository.  What the module below keeps
    of it is the behaviour [NodeLock] relies on: a [Lock] object starts
    without a file handle; [acquire] with [fail_when_locked=True] opens the
    file, tries a non-blocking [flock] once and raises [AlreadyLocked] when
    the lock is held in a conflicting mode, leaving the object without a
    handle; [release] unlocks and closes the handle if there is one and does
    nothing otherwise.  A handle stays open until it is released: what the
    runtime does to a [Lock] object that is dropped while it holds a handle
    is not modelled. *)

Module portalocker.

Definition LOCK_SH : Z := 1.
Definition LOCK_EX : Z := 2.
Definition LOCK_NB : Z := 4.

Record Lock := { filename : Z; flags : Z; fh : option nat }.

Definition Lock_init (filename flags : Z) : Lock :=
  {| filename := filename; flags := flags; fh := None |}.

Definition wants_exclusive (flags : Z) : bool :=
  negb (Z.land flags LOCK_EX =? 0)%Z.

(** [flock] rule: an exclusive request conflicts with any holder, a shared
    request with an exclusive holder. *)
Definition conflicts (flags : Z) (hs : list holder) : bool :=
  if wants_exclusive flags then negb (bool_decide (hs = []))
  else existsb held_ex hs.

Definition holders (file : Z) (f : FS) : list holder :=
  match lockdir f with
  | Some d => default [] (d !! file)
  | None => []
  end.

Definition acquire : M (Lock * World) unit :=
  fun '(self, w) =>
    match fh self with
    | Some _ => (Ok tt, (self, w))
    | None =>
        match lockdir (fs w) with
        | None => (Raise OSError, (self, w))
        | Some d =>
            let hs := default [] (d !! filename self) in
            if conflicts (flags self) hs then
              (Raise AlreadyLocked,
               (self, emit (EvAttempt (filename self) (flags self) None) w))
            else
              let fd := next_fd w in
              let h := {| held_by := Here fd;
                          held_ex := wants_exclusive (flags self) |} in
              (Ok tt,
               ({| filename := filename self; flags := flags self; fh := Some fd |},
                {| fs := {| lockdir := Some (<[filename self := hs ++ [h]]> d);
                            abortdir := abortdir (fs w) |};
                   others := others w;
                   next_fd := S fd;
                   clock := clock w;
                   log := log w ++ [EvAttempt (filename self) (flags self) (Some fd)] |}))
        end
    end.

Definition drop_holder (fd : nat) (hs : list holder) : list holder :=
  filter (fun h => held_by h ≠ Here fd) hs.

Definition release : M (Lock * World) unit :=
  fun '(self, w) =>
    match fh self with
    | None => (Ok tt, (self, w))
    | Some fd =>
        (Ok tt,
         ({| filename := filename self; flags := flags self; fh := None |},
          emit (EvUnlock (filename self) fd)
            (with_fs (fun f =>
               {| lockdir := alter (drop_holder fd) (filename self) <$> lockdir f;
                  abortdir := abortdir f |}) w)))
    end.

End portalocker.

(** ** [class NodeLock] *)

Module NodeLock.

(** [lock] is the attribute [self.lock]; it does not exist until
    [_try_locking] assigns it. *)
Record t := {
  exclusive : bool;
  acquisition_max_retries : Z;
  inode : Z;
  high_priority : bool;
  lock : option portalocker.Lock
}.

Definition __init__ (inode : Z) (exclusive : bool)
    (acquisition_max_retries : Z) (high_priority : bool) : t :=
  {| exclusive := exclusive;
     acquisition_max_retries := acquisition_max_retries;
     inode := inode;
     high_priority := high_priority;
     lock := None |}.

Definition set_lock (l : portalocker.Lock) (self : t) : t :=
  {| exclusive := exclusive self;
     acquisition_max_retries := acquisition_max_retries self;
     inode := inode self;
     high_priority := high_priority self;
     lock := Some l |}.

(** A computation on the world alone, run from inside a method. *)
Definition in_world {A} (c : M World A) : M (t * World) A :=
  fun '(self, w) => let '(r, w') := c w in (r, (self, w')).

(** A method call on the object stored in [self.lock]. *)
Definition on_lock {A} (c : M (portalocker.Lock * World) A) : M (t * World) A :=
  fun '(self, w) =>
    match lock self with
    | None => (Raise AttributeError, (self, w))
    | Some l => let '(r, (l', w')) := c (l, w) in (r, (set_lock l' self, w'))
    end.

Definition abort_requested : M (t * World) bool :=
  gets (fun '(self, w) => os.marker_exists (inode self) (fs w)).

Definition _get_flags (self : t) : Z :=
  if exclusive self then Z.lor portalocker.LOCK_NB portalocker.LOCK_EX
  else Z.lor portalocker.LOCK_NB portalocker.LOCK_SH.

Definition _unlock : M (t * World) unit :=
  on_lock portalocker.release.

Definition _remove_abort_request : M (t * World) unit :=
  pending <- abort_requested ;;
  if pending then
    i <- gets (fun s => inode (fst s)) ;;
    in_world (os.remove_marker i)
  else ret tt.

Definition _request_abort : M (t * World) unit :=
  (present <- in_world os.abortdir_exists ;;
   if negb present then in_world os.mkdir_abortdir else ret tt) ;;
  i <- gets (fun s => inode (fst s)) ;;
  in_world (os.touch_marker i).

Definition _try_locking : M (t * World) bool :=
  (present <- in_world os.lockdir_exists ;;
   if negb present then in_world os.mkdir_lockdir else ret tt) ;;
  modify (fun '(self, w) =>
    (set_lock (portalocker.Lock_init (inode self) (_get_flags self)) self, w)) ;;
  r <- try (on_lock portalocker.acquire) ;;
  match r with
  | Raise AlreadyLocked =>
      hp <- gets (fun s => high_priority (fst s)) ;;
      (if hp then _request_abort else ret tt) ;;
      ret false
  | Raise e => raise e
  | Ok _ =>
      _remove_abort_request ;;
      ret true
  end.

(** [range(n)] *)
Definition range (n : Z) : list Z :=
  Z.of_nat <$> seq 0 (Z.to_nat n).

(** The [for counter in range(...)] loop of [__enter__], followed by the
    [raise] that is reached when the loop runs to its end. *)
Fixpoint retry_loop (counters : list Z) : M (t * World) unit :=
  match counters with
  | [] => raise NodeLockedException
  | _ :: rest =>
      in_world (time.sleep 1) ;;
      got <- _try_locking ;;
      if got then ret tt else retry_loop rest
  end.

Definition __enter__ : M (t * World) unit :=
  got <- _try_locking ;;
  if got then ret tt
  else
    n <- gets (fun s => acquisition_max_retries (fst s)) ;;
    retry_loop (range n).

Definition __exit__ : M (t * World) unit :=
  _unlock.

End NodeLock.

(** ** [class PathLock] *)

Module PathLock.

Record t := { locks : list NodeLock.t }.

(** [for lock in locks: body], where [body] answers [Some a] for
    [return a] and [None] to go on with the next element.  The node locks
    are objects: what a call did to one of them stays done when a later call
    raises. *)
Fixpoint for_locks {A} (body : M (NodeLock.t * World) (option A))
    (ls : list NodeLock.t) (w : World)
    : result (option A) * (list NodeLock.t * World) :=
  match ls with
  | [] => (Ok None, ([], w))
  | l :: rest =>
      match body (l, w) with
      | (Ok None, (l', w')) =>
          let '(r, (rest', w'')) := for_locks body rest w' in
          (r, (l' :: rest', w''))
      | (Ok (Some a), (l', w')) => (Ok (Some a), (l' :: rest, w'))
      | (Raise e, (l', w')) => (Raise e, (l' :: rest, w'))
      end
  end.

Definition for_each {A} (body : M (NodeLock.t * World) (option A))
    : M (t * World) (option A) :=
  fun '(self, w) =>
    let '(r, (ls, w')) := for_locks body (locks self) w in
    (r, ({| locks := ls |}, w')).

Section Construction.

(** [path_utils.yield_partials] and [inode_store.get_inode] are
    collaborators of the constructor. *)
Variable yield_partials : string -> list string.
Variable get_inode : string -> Z.

Definition __init__ (path : string)
    (exclusive_lock_on_path exclusive_lock_on_leaf high_priority : bool)
    (acquisition_max_retries : Z) : M World t :=
  let partials := yield_partials path in
  let locks0 : list NodeLock.t := [] in
  (* Locks for non-leaf-partials *)
  let locks1 :=
    foldl (fun acc p =>
             acc ++ [NodeLock.__init__ (get_inode p) exclusive_lock_on_path
                       acquisition_max_retries high_priority])
          locks0 (removelast partials) in
  (* Lock for leaf *)
  match last partials with
  | None => raise IndexError
  | Some p =>
      ret {| locks :=
               locks1 ++ [NodeLock.__init__ (get_inode p) exclusive_lock_on_leaf
                            acquisition_max_retries high_priority] |}
  end.

End Construction.

Definition __enter__ : M (t * World) unit :=
  for_each (A := unit) (NodeLock.__enter__ ;; ret None) ;;
  ret tt.

Definition __exit__ : M (t * World) unit :=
  for_each (A := unit) (NodeLock.__exit__ ;; ret None) ;;
  ret tt.

Definition abort_requested : M (t * World) bool :=
  r <- for_each (b <- NodeLock.abort_requested ;;
                 ret (if b then Some true else None)) ;;
  match r with
  | Some b => ret b
  | None => ret false
  end.

(** [with self: body]: when [__enter__] raises, the body and [__exit__]
    are skipped; otherwise [__exit__] runs however the body ends, and
    since it returns [None] an exception of the body is raised again. *)
Definition with_ {A} (body : M (t * World) A) : M (t * World) A :=
  __enter__ ;;
  r <- try body ;;
  __exit__ ;;
  match r with
  | Ok a => ret a
  | Raise e => raise e
  end.

End PathLock.

(** ** [path_utils.yield_partials] *)

Module path_utils.

(** The non-empty segments of a slash-delimited path, [cur] being the
    segment read so far. *)
Fixpoint segments (cur : string) (s : string) : list string :=
  match s with
  | EmptyString => if bool_decide (cur = EmptyString) then [] else [cur]
  | String c rest =>
      if bool_decide (c = "/"%char) then
        if bool_decide (cur = EmptyString) then segments EmptyString rest
        else cur :: segments EmptyString rest
      else segments (cur +:+ String c EmptyString) rest
  end.

Fixpoint prefixes (parent : string) (segs : list string) : list string :=
  match segs with
  | [] => []
  | seg :: rest =>
      let p := if bool_decide (parent = EmptyString) then seg
               else parent +:+ "/" +:+ seg in
      p :: prefixes p rest
  end.

(** Modelled from the spec: [path_utils.py] is not among the sources.  The
    spec has the path split into its ordered partial prefixes from root to
    leaf, a trailing separator being ignored, so that [/a/b/c] gives [a],
    [a/b], [a/b/c]. *)
Definition yield_partials (path : string) : list string :=
  prefixes EmptyString (segments EmptyString path).

End path_utils.

(** * Vocabulary of the properties *)

(** The node's resource is held in a mode that conflicts with the mode the
    node asks for. *)
Definition blocked (nl : NodeLock.t) (f : FS) : bool :=
  portalocker.conflicts (NodeLock._get_flags nl)
    (portalocker.holders (NodeLock.inode nl) f).

(** The state after an attempt that found the resource held. *)
Definition after_failure (nl : NodeLock.t) (w : World) : NodeLock.t * World :=
  (NodeLock.set_lock
     (portalocker.Lock_init (NodeLock.inode nl) (NodeLock._get_flags nl)) nl,
   {| fs := {| lockdir := lockdir (fs w);
               abortdir :=
                 if NodeLock.high_priority nl
                 then Some ({[ NodeLock.inode nl ]} ∪ default ∅ (abortdir (fs w)))
                 else abortdir (fs w) |};
      others := others w;
      next_fd := next_fd w;
      clock := clock w;
      log := log w ++ [EvAttempt (NodeLock.inode nl) (NodeLock._get_flags nl) None] |}).

(** The state after an attempt that got the lock. *)
Definition after_success (nl : NodeLock.t) (w : World) : NodeLock.t * World :=
  let i := NodeLock.inode nl in
  let fl := NodeLock._get_flags nl in
  (NodeLock.set_lock
     {| portalocker.filename := i; portalocker.flags := fl;
        portalocker.fh := Some (next_fd w) |} nl,
   {| fs := {| lockdir :=
                 Some (<[ i := portalocker.holders i (fs w) ++
                                 [{| held_by := Here (next_fd w);
                                     held_ex := portalocker.wants_exclusive fl |}] ]>
                         (default ∅ (lockdir (fs w))));
               abortdir := (fun s => s ∖ {[ i ]}) <$> abortdir (fs w) |};
      others := others w;
      next_fd := S (next_fd w);
      clock := clock w;
      log := log w ++ [EvAttempt i fl (Some (next_fd w))] |}).

(** The world after one [time.sleep(1.)]. *)
Definition slept (w : World) : World :=
  {| fs := others w (clock w) (fs w); others := others w;
     next_fd := next_fd w; clock := S (clock w);
     log := log w ++ [EvSleep 1] |}.

Definition failed_attempt (nl : NodeLock.t) : event :=
  EvAttempt (NodeLock.inode nl) (NodeLock._get_flags nl) None.







(** Two states of a node lock that differ at most in [self.lock]. *)
Definition same_request (a b : NodeLock.t) : Prop :=
  NodeLock.inode a = NodeLock.inode b /\
  NodeLock.exclusive a = NodeLock.exclusive b /\
  NodeLock.acquisition_max_retries a = NodeLock.acquisition_max_retries b /\
  NodeLock.high_priority a = NodeLock.high_priority b.

(** The log of [w'] continues the log of [w]. *)
Definition extends (w w' : World) : Prop :=
  exists tail, log w' = log w ++ tail.

(** One node lock of a path lock that was entered: the node as it was
    before, the file handle it got, and what it logged while waiting. *)
Record grant := { g_node : NodeLock.t; g_fd : nat; g_wait : list event }.

Definition granted_attempt (nl : NodeLock.t) (fd : nat) : event :=
  EvAttempt (NodeLock.inode nl) (NodeLock._get_flags nl) (Some fd).

Definition grant_trace (g : grant) : list event :=
  g_wait g ++ [granted_attempt (g_node g) (g_fd g)].

(** While it waits, a node sleeps and retries its own inode, nothing else. *)
Definition waits_only (g : grant) : Prop :=
  Forall (fun e => e = EvSleep 1 \/ e = failed_attempt (g_node g)) (g_wait g).

Definition held_node (g : grant) : NodeLock.t :=
  NodeLock.set_lock
    {| portalocker.filename := NodeLock.inode (g_node g);
       portalocker.flags := NodeLock._get_flags (g_node g);
       portalocker.fh := Some (g_fd g) |} (g_node g).

Definition released_node (g : grant) : NodeLock.t :=
  NodeLock.set_lock
    {| portalocker.filename := NodeLock.inode (g_node g);
       portalocker.flags := NodeLock._get_flags (g_node g);
       portalocker.fh := None |} (g_node g).

Definition unlock_event (g : grant) : event :=
  EvUnlock (NodeLock.inode (g_node g)) (g_fd g).

(** The handle [fd] holds no lock on [file]. *)
Definition not_held (file : Z) (fd : nat) (f : FS) : Prop :=
  Forall (fun h => held_by h <> Here fd) (portalocker.holders file f).

(** The inodes locked, and the inodes unlocked, in the order of the log. *)
Definition acquired_files (l : list event) : list Z :=
  omap (fun e => match e with EvAttempt f _ (Some _) => Some f | _ => None end) l.

Definition released_files (l : list event) : list Z :=
  omap (fun e => match e with EvUnlock f _ => Some f | _ => None end) l.

(** The world after the handle [fd] on [file] was unlocked and closed. *)
Definition unlocked (file : Z) (fd : nat) (w : World) : World :=
  emit (EvUnlock file fd)
    (with_fs (fun f =>
       {| lockdir := alter (portalocker.drop_holder fd) file <$> lockdir f;
          abortdir := abortdir f |}) w).

(** The world in which the attempt number [j] (counted from 0) is made
    when all the attempts before it failed: each failed attempt is
    followed by one sleep. *)
Fixpoint polling (nl : NodeLock.t) (j : nat) (w : World) : World :=
  match j with
  | O => w
  | S j' => polling nl j' (slept (after_failure nl w).2)
  end.

(** What the log shows of [k] failed attempts, each followed by a sleep. *)
Definition waiting_trace (nl : NodeLock.t) (k : nat) : list event :=
  concat (replicate k [failed_attempt nl; EvSleep 1]).

(** An attempt from the world [w], and the retry loop over [cs] after it
    when it fails: the shape shared by [__enter__] and by one round of its
    loop. *)
Definition poll_loop (nl : NodeLock.t) (cs : list Z) (w : World)
    : result unit * (NodeLock.t * World) :=
  if blocked nl (fs w) then NodeLock.retry_loop cs (after_failure nl w)
  else (Ok tt, after_success nl w).


(** The holder that a node lock adds to its lock file. *)
Definition holder_of (nl : NodeLock.t) (fd : nat) : holder :=
  {| held_by := Here fd; held_ex := NodeLock.exclusive nl |}.

(** The grants of node locks that each get their lock at the first
    attempt, the first of them through the handle [n0]. *)
Fixpoint grants_from (n0 : nat) (ls : list NodeLock.t) : list grant :=
  match ls with
  | [] => []
  | l :: rest => {| g_node := l; g_fd := n0; g_wait := [] |} :: grants_from (S n0) rest
  end.


(** ** Sample worlds and locks *)

(** Other processes that do nothing while this one sleeps. *)
Definition idle : nat -> FS -> FS := fun _ f => f.

Definition sample_inodes : gmap string Z :=
  list_to_map [("a", 11%Z); ("a/b", 12%Z); ("a/b/c", 13%Z)]%string.

Definition sample_get_inode (p : string) : Z := default 0%Z (sample_inodes !! p).

(** Nothing exists yet: no lock directory, no abort-request directory. *)
Definition quiet : World :=
  {| fs := {| lockdir := None; abortdir := None |};
     others := idle; next_fd := 3; clock := 0; log := [] |}.

(** Another process holds inode 12 ([a/b]) exclusively. *)
Definition leaf_busy : World :=
  {| fs := {| lockdir := Some {[ 12%Z := [{| held_by := Elsewhere; held_ex := true |}] ]};
              abortdir := None |};
     others := idle; next_fd := 3; clock := 0; log := [] |}.

(** Inode 11 is free and somebody has asked its holder to let go. *)
Definition request_pending : World :=
  {| fs := {| lockdir := Some ∅; abortdir := Some {[ 11%Z ]} |};
     others := idle; next_fd := 3; clock := 0; log := [] |}.

(** An exclusive high-priority node lock on inode 12 with two retries. *)
Definition urgent_node : NodeLock.t := NodeLock.__init__ 12 true 2 true.

(** An exclusive node lock on inode 11 without retries. *)
Definition plain_node : NodeLock.t := NodeLock.__init__ 11 true 0 false.

(** [PathLock("/a/b/c", inode_store)] with the default arguments. *)
Definition sample_path_lock : PathLock.t :=
  {| PathLock.locks :=
       [NodeLock.__init__ 11 false 0 false;
        NodeLock.__init__ 12 false 0 false;
        NodeLock.__init__ 13 true 0 false] |}.

(** [PathLock("/a/b", inode_store)] with the default arguments. *)
Definition short_path_lock : PathLock.t :=
  {| PathLock.locks :=
       [NodeLock.__init__ 11 false 0 false;
        NodeLock.__init__ 12 true 0 false] |}.

(** Another process that lets go of inode 12 during the first sleep. *)
Definition releasing : nat -> FS -> FS :=
  fun k f =>
    match k with
    | O => {| lockdir := alter (fun _ => []) 12%Z <$> lockdir f;
              abortdir := abortdir f |}
    | S _ => f
    end.

(** Inode 12 is held exclusively for one more second. *)
Definition leaf_released_soon : World :=
  {| fs := fs leaf_busy; others := releasing; next_fd := 3; clock := 0; log := [] |}.



(** * Properties *)

(** ** One try-lock attempt *)

Lemma difference_absent (s : gset Z) (i : Z) : i ∉ s -> s ∖ {[ i ]} = s.
Proof.
  intros Hi. apply set_eq. intros j.
  rewrite elem_of_difference, elem_of_singleton. split.
  - by intros [Hj _].
  - intros Hj. split; [done|]. by intros ->.
Qed.

Lemma remove_abort_request_run nl w :
  NodeLock._remove_abort_request (nl, w) =
    (Ok tt,
     (nl, with_fs (fun f => {| lockdir := lockdir f;
                               abortdir := (fun s => s ∖ {[ NodeLock.inode nl ]})
                                             <$> abortdir f |}) w)).
Proof.
  destruct w as [[ld ad] o n c l].
  unfold NodeLock._remove_abort_request, NodeLock.abort_requested, bind, gets,
    NodeLock.in_world, os.remove_marker, with_fs. simpl.
  destruct (os.marker_exists (NodeLock.inode nl) _) eqn:Hm; simpl;
    rewrite ?Hm; simpl.
  - reflexivity.
  - unfold ret. do 4 f_equal. unfold os.marker_exists in Hm. simpl in Hm.
    destruct ad as [s|]; simpl; [|reflexivity].
    apply bool_decide_eq_false in Hm.
    by rewrite difference_absent.
Qed.

Lemma request_abort_run nl w :
  NodeLock._request_abort (nl, w) =
    (Ok tt,
     (nl, with_fs (fun f => {| lockdir := lockdir f;
                               abortdir := Some ({[ NodeLock.inode nl ]} ∪
                                                 default ∅ (abortdir f)) |}) w)).
Proof.
  destruct w as [[ld [s|]] o n c l]; reflexivity.
Qed.

Lemma try_locking_blocked nl w :
  blocked nl (fs w) = true ->
  NodeLock._try_locking (nl, w) = (Ok false, after_failure nl w).
Proof.
  destruct w as [[ld ad] o n c l].
  unfold blocked, portalocker.holders, after_failure. simpl.
  intros Hb. destruct ld as [d|]; simpl in *.
  - unfold NodeLock._try_locking, bind at 1 2 3. simpl.
    unfold bind at 1, try, NodeLock.on_lock, portalocker.acquire. simpl.
    rewrite Hb. simpl.
    unfold bind at 1, gets at 1. simpl.
    destruct (NodeLock.high_priority nl); simpl.
    + unfold bind. rewrite request_abort_run. reflexivity.
    + reflexivity.
  - exfalso. unfold portalocker.conflicts in Hb.
    destruct (portalocker.wants_exclusive _); simpl in Hb; discriminate.
Qed.

Lemma try_locking_free nl w :
  blocked nl (fs w) = false ->
  NodeLock._try_locking (nl, w) = (Ok true, after_success nl w).
Proof.
  destruct w as [[ld ad] o n c l].
  unfold blocked, portalocker.holders, after_success. simpl.
  intros Hb.
  unfold NodeLock._try_locking, bind at 1 2 3. simpl.
  destruct ld as [d|]; simpl in *.
  - unfold bind at 1, try, NodeLock.on_lock, portalocker.acquire. simpl.
    rewrite Hb. simpl.
    unfold bind. rewrite remove_abort_request_run. reflexivity.
  - unfold bind at 1, try, NodeLock.on_lock, portalocker.acquire. simpl.
    rewrite lookup_empty. simpl. rewrite Hb. simpl.
    unfold bind. rewrite remove_abort_request_run. reflexivity.
Qed.

(** An attempt never raises: it answers whether the lock was obtained. *)
Lemma try_locking_total nl w :
  NodeLock._try_locking (nl, w) =
    if blocked nl (fs w) then (Ok false, after_failure nl w)
    else (Ok true, after_success nl w).
Proof.
  destruct (blocked nl (fs w)) eqn:Hb.
  - by apply try_locking_blocked.
  - by apply try_locking_free.
Qed.



(** ** Acquisition with bounded retry *)

Lemma retry_loop_step nl w c cs :
  NodeLock.retry_loop (c :: cs) (nl, w) =
    if blocked nl (fs (slept w))
    then NodeLock.retry_loop cs (after_failure nl (slept w))
    else (Ok tt, after_success nl (slept w)).
Proof.
  cbn [NodeLock.retry_loop]. unfold bind at 1.
  change (NodeLock.in_world (time.sleep 1) (nl, w)) with (Ok tt, (nl, slept w)).
  cbv beta iota. unfold bind at 1. rewrite try_locking_total.
  by destruct (blocked nl (fs (slept w))).
Qed.

Lemma enter_step nl w :
  NodeLock.__enter__ (nl, w) =
    if blocked nl (fs w)
    then NodeLock.retry_loop
           (NodeLock.range (NodeLock.acquisition_max_retries nl))
           (after_failure nl w)
    else (Ok tt, after_success nl w).
Proof.
  unfold NodeLock.__enter__, bind at 1. rewrite try_locking_total.
  by destruct (blocked nl (fs w)).
Qed.

Lemma range_length n : length (NodeLock.range n) = Z.to_nat n.
Proof. unfold NodeLock.range. by rewrite length_fmap, length_seq. Qed.





(** ** The abort-request protocol *)

Lemma marker_exists_post (i j : Z) (a : option (gset Z)) ld :
  os.marker_exists j {| lockdir := ld; abortdir := Some ({[ i ]} ∪ default ∅ a) |} =
    if bool_decide (j = i) then true
    else os.marker_exists j {| lockdir := ld; abortdir := a |}.
Proof.
  unfold os.marker_exists. cbn. destruct (decide (j = i)) as [->|Hj].
  - rewrite (bool_decide_eq_true_2 (i = i)) by done.
    apply bool_decide_eq_true. set_solver.
  - rewrite (bool_decide_eq_false_2 (j = i)) by done.
    destruct a as [s|]; cbn.
    + apply bool_decide_ext. set_solver.
    + apply bool_decide_eq_false. set_solver.
Qed.

Lemma marker_exists_clear (i j : Z) (a : option (gset Z)) ld :
  os.marker_exists j
    {| lockdir := ld; abortdir := (fun s => s ∖ {[ i ]}) <$> a |} =
    if bool_decide (j = i) then false
    else os.marker_exists j {| lockdir := ld; abortdir := a |}.
Proof.
  unfold os.marker_exists. cbn. destruct (decide (j = i)) as [->|Hj].
  - rewrite (bool_decide_eq_true_2 (i = i)) by done.
    destruct a as [s|]; cbn; [|done].
    apply bool_decide_eq_false. set_solver.
  - rewrite (bool_decide_eq_false_2 (j = i)) by done.
    destruct a as [s|]; cbn; [|done].
    apply bool_decide_ext. set_solver.
Qed.

Lemma marker_exists_abortdir j f f' :
  abortdir f = abortdir f' -> os.marker_exists j f = os.marker_exists j f'.
Proof. unfold os.marker_exists. by intros ->. Qed.


Lemma clear_absent (i : Z) (a : option (gset Z)) ld :
  os.marker_exists i {| lockdir := ld; abortdir := a |} = false ->
  (fun s => s ∖ {[ i ]}) <$> a = a.
Proof.
  unfold os.marker_exists. cbn. destruct a as [s|]; [|done].
  intros Hi%bool_decide_eq_false. cbn. f_equal. by apply difference_absent.
Qed.


Lemma same_request_refl a : same_request a a.
Proof. by repeat split. Qed.

Lemma same_request_trans a b c :
  same_request a b -> same_request b c -> same_request a c.
Proof.
  intros (?&?&?&?) (?&?&?&?). repeat split; congruence.
Qed.

Lemma after_failure_same nl w : same_request (after_failure nl w).1 nl.
Proof. by repeat split. Qed.

(** A retry loop that ends well ends with an attempt that got the lock. *)
Lemma retry_loop_success cs s s' :
  NodeLock.retry_loop cs s = (Ok tt, s') ->
  exists nl1 w1,
    same_request nl1 s.1 /\ blocked nl1 (fs w1) = false /\
    s' = after_success nl1 w1.
Proof.
  revert s. induction cs as [|c cs IH]; intros [nl w].
  - discriminate.
  - rewrite retry_loop_step. destruct (blocked nl (fs (slept w))) eqn:Hb.
    + intros (nl1 & w1 & Hsame & Hfree & Heq)%IH.
      exists nl1, w1. split; [|done].
      eapply same_request_trans; [exact Hsame|apply after_failure_same].
    + intros [= <-]. exists nl, (slept w).
      split; [apply same_request_refl|]. by split.
Qed.

Lemma enter_success nl w s' :
  NodeLock.__enter__ (nl, w) = (Ok tt, s') ->
  exists nl1 w1,
    same_request nl1 nl /\ blocked nl1 (fs w1) = false /\
    s' = after_success nl1 w1.
Proof.
  rewrite enter_step. destruct (blocked nl (fs w)) eqn:Hb.
  - intros (nl1 & w1 & Hsame & Hfree & Heq)%retry_loop_success.
    exists nl1, w1. split; [|done].
    eapply same_request_trans; [exact Hsame|apply after_failure_same].
  - intros [= <-]. exists nl, w.
    split; [apply same_request_refl|]. by split.
Qed.

(** C3.  A successful [NodeLock.__enter__] ends with a try-lock attempt that
    got the lock, made by the same node in some world [w1]; that attempt
    removes the marker of the node's resource id and nothing else (so it
    changes nothing when no request is pending), and afterwards
    [abort_requested()] is false for every node lock on that resource id. *)
Theorem C3_successful_acquire_clears_abort_request nl w nl' w' :
  NodeLock.__enter__ (nl, w) = (Ok tt, (nl', w')) ->
  NodeLock.inode nl' = NodeLock.inode nl /\
  (forall other,
     NodeLock.inode other = NodeLock.inode nl ->
     NodeLock.abort_requested (other, w') = (Ok false, (other, w'))) /\
  exists nl1 w1,
    NodeLock.inode nl1 = NodeLock.inode nl /\
    NodeLock._try_locking (nl1, w1) = (Ok true, (nl', w')) /\
    abortdir (fs w') = (fun s => s ∖ {[ NodeLock.inode nl ]}) <$> abortdir (fs w1) /\
    (os.marker_exists (NodeLock.inode nl) (fs w1) = false ->
       abortdir (fs w') = abortdir (fs w1)).
Proof.
  intros (nl1 & w1 & (Hi & _) & Hfree & Heq)%enter_success.
  injection Heq as -> ->. split; [exact Hi|]. split.
  - intros other Ho. unfold NodeLock.abort_requested, gets. f_equal. f_equal.
    rewrite Ho, <- Hi. cbn.
    rewrite (marker_exists_clear _ _ (abortdir (fs w1))).
    by rewrite bool_decide_eq_true_2.
  - exists nl1, w1. split; [exact Hi|]. split; [by apply try_locking_free|].
    rewrite <- Hi. split; [reflexivity|].
    destruct w1 as [[ld ad] o n c l]. cbn. apply clear_absent.
Qed.

(** ** Release *)

Lemma exit_abortdir nl w :
  abortdir (fs (NodeLock.__exit__ (nl, w)).2.2) = abortdir (fs w).
Proof.
  unfold NodeLock.__exit__, NodeLock._unlock, NodeLock.on_lock,
    portalocker.release.
  destruct (NodeLock.lock nl) as [[file fl [fd|]]|]; reflexivity.
Qed.

(** C7.  [NodeLock.__exit__] leaves the abort-request directory as it is:
    whatever the node lock holds, every marker that existed before the
    release exists after it and no marker is created. *)
Theorem C7_release_keeps_abort_requests nl w :
  abortdir (fs (NodeLock.__exit__ (nl, w)).2.2) = abortdir (fs w) /\
  forall other,
    (NodeLock.abort_requested (other, (NodeLock.__exit__ (nl, w)).2.2)).1 =
    (NodeLock.abort_requested (other, w)).1.
Proof.
  split; [apply exit_abortdir|].
  intros other. unfold NodeLock.abort_requested, gets. cbn. f_equal.
  apply marker_exists_abortdir, exit_abortdir.
Qed.

(** [__enter__] raises nothing but [NodeLockedException], and whatever its
    outcome it has assigned [self.lock]. *)
Lemma retry_loop_outcome cs s :
  is_Some (NodeLock.lock s.1) ->
  ((NodeLock.retry_loop cs s).1 = Ok tt \/
   (NodeLock.retry_loop cs s).1 = Raise NodeLockedException) /\
  is_Some (NodeLock.lock (NodeLock.retry_loop cs s).2.1).
Proof.
  revert s. induction cs as [|c cs IH]; intros [nl w] Hl.
  - split; [by right|done].
  - rewrite retry_loop_step. destruct (blocked nl (fs (slept w))).
    + apply IH. by eexists.
    + split; [by left|by eexists].
Qed.

Lemma enter_outcome nl w :
  ((NodeLock.__enter__ (nl, w)).1 = Ok tt \/
   (NodeLock.__enter__ (nl, w)).1 = Raise NodeLockedException) /\
  is_Some (NodeLock.lock (NodeLock.__enter__ (nl, w)).2.1).
Proof.
  rewrite enter_step. destruct (blocked nl (fs w)).
  - apply retry_loop_outcome. by eexists.
  - split; [by left|by eexists].
Qed.

Lemma exit_with_lock nl w :
  is_Some (NodeLock.lock nl) -> (NodeLock.__exit__ (nl, w)).1 = Ok tt.
Proof.
  intros [[file fl fd] Hl].
  unfold NodeLock.__exit__, NodeLock._unlock, NodeLock.on_lock,
    portalocker.release.
  rewrite Hl. by destruct fd.
Qed.

(** C6, as the code has it.  Once [__enter__] has been called on a node
    lock, with whatever outcome (it returns or raises
    [NodeLockedException], nothing else), [__exit__] on that node lock
    does not raise, in whatever world it is called. *)
Theorem C6_release_after_attempt_does_not_raise nl w r nl' w' :
  NodeLock.__enter__ (nl, w) = (r, (nl', w')) ->
  (r = Ok tt \/ r = Raise NodeLockedException) /\
  forall w2, (NodeLock.__exit__ (nl', w2)).1 = Ok tt.
Proof.
  intros Hrun. pose proof (enter_outcome nl w) as [Hr Hl].
  rewrite Hrun in Hr, Hl. split; [exact Hr|].
  intros w2. by apply exit_with_lock.
Qed.

(** ** Construction of a path lock *)

Lemma foldl_append {A B} (f : A -> B) (l : list A) (acc : list B) :
  foldl (fun acc a => acc ++ [f a]) acc l = acc ++ (f <$> l).
Proof.
  revert acc. induction l as [|a l IH]; intros acc; cbn.
  - by rewrite app_nil_r.
  - rewrite IH. by rewrite <- app_assoc.
Qed.

Lemma removelast_snoc {A} (l : list A) (x : A) : removelast (l ++ [x]) = l.
Proof. apply removelast_last. Qed.

Lemma init_run yield_partials get_inode path ex_path ex_leaf hp n w ancestors leaf :
  yield_partials path = ancestors ++ [leaf] ->
  PathLock.__init__ yield_partials get_inode path ex_path ex_leaf hp n w =
    (Ok {| PathLock.locks :=
             ((fun p => NodeLock.__init__ (get_inode p) ex_path n hp) <$> ancestors)
             ++ [NodeLock.__init__ (get_inode leaf) ex_leaf n hp] |}, w).
Proof.
  intros Hp. unfold PathLock.__init__. rewrite Hp, removelast_snoc, last_snoc.
  by rewrite foldl_append.
Qed.

(** Without any prefix there is no leaf: [partials[-1]] raises. *)
Lemma init_without_prefixes yield_partials get_inode path ex_path ex_leaf hp n w :
  yield_partials path = [] ->
  PathLock.__init__ yield_partials get_inode path ex_path ex_leaf hp n w =
    (Raise IndexError, w).
Proof. intros Hp. unfold PathLock.__init__. by rewrite Hp. Qed.

(** C8.  When the path decomposes into [n >= 1] prefixes, the ancestors
    followed by the leaf, the constructor returns a path lock with exactly
    [n] node locks, the [k]-th on the resource id of the [k]-th prefix:
    the ancestors with [exclusive_lock_on_path], the leaf with
    [exclusive_lock_on_leaf], each with the path lock's [high_priority] and
    [acquisition_max_retries]. *)
Theorem C8_construction_builds_one_node_per_prefix
    (yield_partials : string -> list string) (get_inode : string -> Z)
    path ex_path ex_leaf hp n w ancestors leaf :
  yield_partials path = ancestors ++ [leaf] ->
  exists pl,
    PathLock.__init__ yield_partials get_inode path ex_path ex_leaf hp n w = (Ok pl, w) /\
    PathLock.locks pl =
      ((fun p => NodeLock.__init__ (get_inode p) ex_path n hp) <$> ancestors)
      ++ [NodeLock.__init__ (get_inode leaf) ex_leaf n hp] /\
    length (PathLock.locks pl) = length (yield_partials path) /\
    NodeLock.inode <$> PathLock.locks pl = get_inode <$> yield_partials path /\
    forall k nl,
      PathLock.locks pl !! k = Some nl ->
      NodeLock.exclusive nl =
        (if bool_decide (S k = length (yield_partials path)) then ex_leaf else ex_path) /\
      portalocker.wants_exclusive (NodeLock._get_flags nl) = NodeLock.exclusive nl /\
      NodeLock.high_priority nl = hp /\
      NodeLock.acquisition_max_retries nl = n.
Proof.
  intros Hp. eexists. split; [by apply init_run|]. cbn [PathLock.locks].
  split; [done|]. rewrite Hp. split; [|split].
  - by rewrite !length_app, length_fmap.
  - rewrite !fmap_app, <- list_fmap_compose. reflexivity.
  - intros k nl Hk. rewrite length_app. cbn [length].
    destruct (decide (k < length ancestors)%nat) as [Hlt|Hge].
    + rewrite lookup_app_l in Hk by by rewrite length_fmap.
      apply list_lookup_fmap_Some in Hk as (p & -> & _).
      rewrite bool_decide_eq_false_2 by lia. cbn. by destruct ex_path.
    + rewrite lookup_app_r in Hk by (rewrite length_fmap; lia).
      rewrite length_fmap in Hk.
      destruct (k - length ancestors)%nat as [|m] eqn:Hm; [|done].
      injection Hk as <-.
      rewrite bool_decide_eq_true_2 by lia. cbn. by destruct ex_leaf.
Qed.

(** ** What the log shows *)

Lemma extends_refl w : extends w w.
Proof. exists []. by rewrite app_nil_r. Qed.

Lemma extends_trans w1 w2 w3 : extends w1 w2 -> extends w2 w3 -> extends w1 w3.
Proof.
  intros [t1 H1] [t2 H2]. exists (t1 ++ t2). by rewrite H2, H1, app_assoc.
Qed.

Lemma extends_cons w w' e tail :
  log w' = log w ++ e :: tail -> forall w'', extends w' w'' ->
  exists tail', log w'' = log w ++ e :: tail'.
Proof.
  intros Hl w'' [t Ht]. exists (tail ++ t).
  by rewrite Ht, Hl, <- app_assoc.
Qed.

Lemma retry_loop_extends cs s : extends s.2 (NodeLock.retry_loop cs s).2.2.
Proof.
  revert s. induction cs as [|c cs IH]; intros [nl w].
  - apply extends_refl.
  - rewrite retry_loop_step. destruct (blocked nl (fs (slept w))).
    + eapply extends_trans; [|apply IH]. cbn.
      exists [EvSleep 1; failed_attempt nl]. by rewrite <- app_assoc.
    + cbn. eexists [EvSleep 1; _]. by rewrite <- app_assoc.
Qed.

(** The first thing [__enter__] does is a try-lock attempt on its inode. *)
Lemma enter_first_event nl w :
  exists got tail,
    log (NodeLock.__enter__ (nl, w)).2.2 =
      log w ++ EvAttempt (NodeLock.inode nl) (NodeLock._get_flags nl) got :: tail.
Proof.
  rewrite enter_step. destruct (blocked nl (fs w)).
  - destruct (retry_loop_extends
                (NodeLock.range (NodeLock.acquisition_max_retries nl))
                (after_failure nl w)) as [tail Ht].
    exists None, tail. rewrite Ht. cbn. by rewrite <- app_assoc.
  - by exists (Some (next_fd w)), [].
Qed.

Lemma enter_extends s : extends s.2 (NodeLock.__enter__ s).2.2.
Proof.
  destruct s as [nl w]. destruct (enter_first_event nl w) as (got & tail & Ht).
  by eexists.
Qed.

Lemma exit_extends s : extends s.2 (NodeLock.__exit__ s).2.2.
Proof.
  destruct s as [nl w].
  unfold NodeLock.__exit__, NodeLock._unlock, NodeLock.on_lock,
    portalocker.release.
  destruct (NodeLock.lock nl) as [[file fl [fd|]]|]; cbn;
    first [apply extends_refl | by eexists].
Qed.

Lemma for_locks_extends {A} (body : M (NodeLock.t * World) (option A)) ls w :
  (forall s, extends s.2 (body s).2.2) ->
  extends w (PathLock.for_locks body ls w).2.2.
Proof.
  intros Hbody. revert w. induction ls as [|l rest IH]; intros w.
  - apply extends_refl.
  - cbn [PathLock.for_locks]. pose proof (Hbody (l, w)) as Hl.
    destruct (body (l, w)) as [[[a|]|e] [l' w']]; cbn in Hl |- *; try done.
    pose proof (IH w') as Hrest.
    destruct (PathLock.for_locks body rest w') as [r [rest' w'']].
    cbn in Hrest |- *. by eapply extends_trans.
Qed.

Lemma then_continue_state (c : M (NodeLock.t * World) unit) s :
  ((c ;; ret (@None unit)) s).2 = (c s).2.
Proof. unfold bind. by destruct (c s) as [[[]|e] s']. Qed.

(** C10.  The constructor leaves the world as it is (no lock file, no
    marker, no log entry, no file handle), and none of the node locks it
    builds has a lock object yet: locks are taken by [__enter__], which
    starts with a try-lock attempt on the first node. *)
Theorem C10_construction_leaves_the_world_unchanged
    (yield_partials : string -> list string) (get_inode : string -> Z)
    path ex_path ex_leaf hp n w :
  (PathLock.__init__ yield_partials get_inode path ex_path ex_leaf hp n w).2 = w /\
  forall pl,
    (PathLock.__init__ yield_partials get_inode path ex_path ex_leaf hp n w).1 = Ok pl ->
    Forall (fun nl => NodeLock.lock nl = None) (PathLock.locks pl) /\
    exists first rest got tail,
      PathLock.locks pl = first :: rest /\
      log (PathLock.__enter__ (pl, w)).2.2 =
        log w ++ EvAttempt (NodeLock.inode first) (NodeLock._get_flags first) got :: tail.
Proof.
  unfold PathLock.__init__. rewrite foldl_append. cbn [app].
  destruct (last (yield_partials path)) as [leaf|]; [|by split].
  split; [done|]. intros pl [= <-]. cbn [PathLock.locks]. split.
  - apply Forall_app. split; [|by repeat constructor].
    apply Forall_fmap. by apply Forall_true.
  - set (ls := _ ++ [_]).
    assert (Hne : ls <> []) by (subst ls; by destruct (_ <$> _)).
    destruct ls as [|first rest]; [done|]. clear Hne.
    destruct (enter_first_event first w) as (got & tail & Hfirst).
    exists first, rest, got.
    assert (Hrun : extends (NodeLock.__enter__ (first, w)).2.2
                     (PathLock.__enter__ ({| PathLock.locks := first :: rest |}, w)).2.2).
    { unfold PathLock.__enter__, bind at 1, PathLock.for_each.
      cbn [PathLock.locks PathLock.for_locks].
      rewrite <- (then_continue_state NodeLock.__enter__ (first, w)).
      destruct ((NodeLock.__enter__;; ret None) (first, w))
        as [[[[]|]|e] [l' w']]; cbn; try apply extends_refl.
      pose proof (for_locks_extends (NodeLock.__enter__;; ret (@None unit)) rest w')
        as Hrest.
      destruct (PathLock.for_locks _ rest w') as [[r|e] [rest' w'']]; cbn in *;
        apply Hrest; intros s; rewrite then_continue_state; apply enter_extends. }
    destruct (extends_cons _ _ _ _ Hfirst _ Hrun) as [tail' Ht].
    by exists tail'.
Qed.

(** ** Polling a path lock for abort requests *)

Lemma for_locks_abort_requested ls w :
  PathLock.for_locks
    (b <- NodeLock.abort_requested ;; ret (if b then Some true else None)) ls w =
  (Ok (if existsb (fun nl => os.marker_exists (NodeLock.inode nl) (fs w)) ls
       then Some true else None),
   (ls, w)).
Proof.
  induction ls as [|l rest IH]; [done|].
  cbn [PathLock.for_locks existsb].
  change ((b <- NodeLock.abort_requested ;;
           ret (if b then Some true else None)) (l, w))
    with (Ok (if os.marker_exists (NodeLock.inode l) (fs w)
              then Some true else @None bool), (l, w)).
  destruct (os.marker_exists (NodeLock.inode l) (fs w)); [done|].
  cbn [orb]. rewrite IH. reflexivity.
Qed.

(** C9.  [PathLock.abort_requested] changes nothing and answers [True]
    exactly when one of the node locks of the path answers [True] to
    [abort_requested]; when none does, it answers [False]. *)
Theorem C9_path_abort_requested_iff_some_node pl w :
  exists b,
    PathLock.abort_requested (pl, w) = (Ok b, (pl, w)) /\
    (b = true <->
     exists nl, nl ∈ PathLock.locks pl /\
                NodeLock.abort_requested (nl, w) = (Ok true, (nl, w))) /\
    (b = false <->
     forall nl, nl ∈ PathLock.locks pl ->
                NodeLock.abort_requested (nl, w) = (Ok false, (nl, w))).
Proof.
  destruct pl as [ls].
  exists (existsb (fun nl => os.marker_exists (NodeLock.inode nl) (fs w)) ls).
  split.
  - unfold PathLock.abort_requested, bind, PathLock.for_each.
    cbn [PathLock.locks]. rewrite for_locks_abort_requested.
    by destruct (existsb _ ls).
  - cbn [PathLock.locks]. unfold NodeLock.abort_requested, gets. split.
    + rewrite existsb_exists. split.
      * intros (nl & Hin & Hm). exists nl. split; [by apply list_elem_of_In|].
        by rewrite Hm.
      * intros (nl & Hin & [= Hm]). exists nl. split; [by apply list_elem_of_In|done].
    + rewrite <- not_true_iff_false, existsb_exists. split.
      * intros Hno nl Hin.
        destruct (os.marker_exists (NodeLock.inode nl) (fs w)) eqn:Hm; [|done].
        destruct Hno. exists nl. split; [by apply list_elem_of_In|done].
      * intros Hall (nl & Hin%list_elem_of_In & Hm).
        specialize (Hall nl Hin). injection Hall as Hall. congruence.
Qed.

(** ** Order of acquisition and release in a path lock *)

Lemma retry_loop_granted cs nl w s' :
  NodeLock.retry_loop cs (nl, w) = (Ok tt, s') ->
  exists fd pre,
    Forall (fun e => e = EvSleep 1 \/ e = failed_attempt nl) pre /\
    log s'.2 = log w ++ pre ++ [granted_attempt nl fd] /\
    s'.1 = NodeLock.set_lock
             {| portalocker.filename := NodeLock.inode nl;
                portalocker.flags := NodeLock._get_flags nl;
                portalocker.fh := Some fd |} nl.
Proof.
  revert nl w. induction cs as [|c cs IH]; intros nl w.
  - discriminate.
  - rewrite retry_loop_step. destruct (blocked nl (fs (slept w))).
    + intros (fd & pre & Hpre & Hlog & Hnl)%IH.
      exists fd, (EvSleep 1 :: failed_attempt nl :: pre). split; [|split].
      * constructor; [by left|]. constructor; [by right|exact Hpre].
      * rewrite Hlog. cbn. by rewrite <- !app_assoc.
      * exact Hnl.
    + intros [= <-]. exists (next_fd w), [EvSleep 1]. split; [|split].
      * constructor; [by left|constructor].
      * cbn. by rewrite <- app_assoc.
      * reflexivity.
Qed.

Lemma enter_granted nl w s' :
  NodeLock.__enter__ (nl, w) = (Ok tt, s') ->
  exists g,
    g_node g = nl /\ waits_only g /\
    log s'.2 = log w ++ grant_trace g /\ s'.1 = held_node g.
Proof.
  rewrite enter_step. destruct (blocked nl (fs w)).
  - intros (fd & pre & Hpre & Hlog & Hnl)%retry_loop_granted.
    exists {| g_node := nl; g_fd := fd; g_wait := failed_attempt nl :: pre |}.
    split; [done|]. split; [|split].
    + constructor; [by right|exact Hpre].
    + rewrite Hlog. unfold grant_trace. cbn. by rewrite <- app_assoc.
    + exact Hnl.
  - intros [= <-].
    exists {| g_node := nl; g_fd := next_fd w; g_wait := [] |}.
    split; [done|]. split; [constructor|]. split; reflexivity.
Qed.

Lemma for_locks_enter ls w r ls' w' :
  PathLock.for_locks (A := unit) (NodeLock.__enter__ ;; ret None) ls w =
    (Ok r, (ls', w')) ->
  exists gs,
    ls = g_node <$> gs /\ Forall waits_only gs /\
    log w' = log w ++ concat (grant_trace <$> gs) /\
    ls' = held_node <$> gs.
Proof.
  revert w r ls' w'. induction ls as [|l rest IH]; intros w r ls' w'.
  - intros [= <- <- <-]. exists []. cbn. by rewrite app_nil_r.
  - cbn [PathLock.for_locks]. unfold bind at 1.
    destruct (NodeLock.__enter__ (l, w)) as [[[]|e] [l1 w1]] eqn:Hl; [|done].
    cbn. destruct (PathLock.for_locks _ rest w1) as [r2 [rest2 w2]] eqn:Hrest.
    intros [= -> <- <-].
    apply enter_granted in Hl as (g & Hg & Hwait & Hlog & Hheld).
    apply IH in Hrest as (gs & Hgs & Hwaits & Hlogs & Hhelds).
    exists (g :: gs). cbn in *. subst. split; [done|]. split; [by constructor|].
    split; [|done]. rewrite Hlogs, Hlog. by rewrite <- app_assoc.
Qed.

Lemma exit_held g w :
  NodeLock.__exit__ (held_node g, w) =
    (Ok tt, (released_node g, unlocked (NodeLock.inode (g_node g)) (g_fd g) w)).
Proof. reflexivity. Qed.

Lemma holders_unlocked file fd f w :
  portalocker.holders f (fs (unlocked file fd w)) =
    if decide (f = file) then portalocker.drop_holder fd (portalocker.holders f (fs w))
    else portalocker.holders f (fs w).
Proof.
  unfold portalocker.holders, unlocked. cbn.
  destruct (lockdir (fs w)) as [d|]; cbn.
  - destruct (decide (f = file)) as [->|Hf].
    + rewrite lookup_alter_eq. by destruct (d !! file).
    + by rewrite lookup_alter_ne.
  - by destruct (decide (f = file)).
Qed.

Lemma not_held_unlocked file fd w :
  not_held file fd (fs (unlocked file fd w)).
Proof.
  unfold not_held. rewrite holders_unlocked, decide_True by done.
  apply Forall_forall. intros h Hh.
  by apply list_elem_of_filter in Hh as [Hh _].
Qed.

Lemma not_held_preserved f x file fd w :
  not_held f x (fs w) -> not_held f x (fs (unlocked file fd w)).
Proof.
  unfold not_held. rewrite holders_unlocked.
  destruct (decide (f = file)); [|done].
  rewrite !Forall_forall. intros Hall h Hh.
  apply list_elem_of_filter in Hh as [_ Hh]. by apply Hall.
Qed.

Lemma for_locks_exit gs w :
  exists w',
    PathLock.for_locks (A := unit) (NodeLock.__exit__ ;; ret None)
      (held_node <$> gs) w = (Ok None, (released_node <$> gs, w')) /\
    log w' = log w ++ (unlock_event <$> gs) /\
    Forall (fun g => not_held (NodeLock.inode (g_node g)) (g_fd g) (fs w')) gs /\
    (forall f x, not_held f x (fs w) -> not_held f x (fs w')).
Proof.
  revert w. induction gs as [|g gs IH]; intros w.
  - exists w. cbn. rewrite app_nil_r. by repeat split.
  - cbn [fmap list_fmap PathLock.for_locks]. unfold bind at 1.
    rewrite exit_held. cbn [ret].
    destruct (IH (unlocked (NodeLock.inode (g_node g)) (g_fd g) w))
      as (w' & Hrun & Hlog & Hall & Hkeep).
    exists w'. rewrite Hrun. split; [done|]. split; [|split].
    + rewrite Hlog. cbn. by rewrite <- app_assoc.
    + constructor; [|exact Hall]. apply Hkeep, not_held_unlocked.
    + intros f x Hf. by apply Hkeep, not_held_preserved.
Qed.

Lemma acquired_files_trace gs :
  Forall waits_only gs ->
  acquired_files (concat (grant_trace <$> gs)) = (NodeLock.inode ∘ g_node) <$> gs.
Proof.
  induction 1 as [|g gs Hg _ IH]; [done|].
  cbn [fmap list_fmap concat]. unfold acquired_files in *.
  rewrite omap_app, IH. unfold grant_trace. rewrite omap_app. cbn.
  replace (omap _ (g_wait g)) with (@nil Z); [done|].
  symmetry. induction Hg as [|e l [-> | ->] _ IHl]; cbn; by rewrite <- ?IHl.
Qed.

Lemma released_files_unlock gs :
  released_files (unlock_event <$> gs) = (NodeLock.inode ∘ g_node) <$> gs.
Proof.
  unfold released_files. induction gs as [|g gs IH]; [done|].
  cbn. by rewrite <- IH.
Qed.

Lemma init_inodes yield_partials get_inode path ex_path ex_leaf hp n w pl w' :
  PathLock.__init__ yield_partials get_inode path ex_path ex_leaf hp n w = (Ok pl, w') ->
  NodeLock.inode <$> PathLock.locks pl = get_inode <$> yield_partials path.
Proof.
  unfold PathLock.__init__. rewrite foldl_append. cbn [app].
  destruct (last (yield_partials path)) as [leaf|] eqn:Hlast; [|done].
  apply last_Some in Hlast as [ancestors Hp]. intros [= <- _].
  cbn [PathLock.locks]. rewrite Hp, removelast_snoc.
  rewrite !fmap_app, <- list_fmap_compose. reflexivity.
Qed.

(** C5.  When a path lock built by the constructor is entered, its node
    locks are acquired one after the other in the order of the path's
    prefixes: the log is the concatenation, in that order, of one stretch
    per node in which the node only sleeps and retries its own inode and
    which ends when it gets its lock.  On [__exit__], in whatever world the
    body left, every node lock is released, in the same order, and none of
    the handles taken holds its lock file any longer. *)
Theorem C5_root_to_leaf_acquisition_and_release
    (yield_partials : string -> list string) (get_inode : string -> Z)
    path ex_path ex_leaf hp n w0 w0' pl w pl1 w1 :
  PathLock.__init__ yield_partials get_inode path ex_path ex_leaf hp n w0 = (Ok pl, w0') ->
  PathLock.__enter__ (pl, w) = (Ok tt, (pl1, w1)) ->
  exists gs,
    PathLock.locks pl = g_node <$> gs /\
    Forall waits_only gs /\
    log w1 = log w ++ concat (grant_trace <$> gs) /\
    acquired_files (concat (grant_trace <$> gs)) = get_inode <$> yield_partials path /\
    PathLock.locks pl1 = held_node <$> gs /\
    forall w2, exists w3,
      PathLock.__exit__ (pl1, w2) =
        (Ok tt, ({| PathLock.locks := released_node <$> gs |}, w3)) /\
      log w3 = log w2 ++ (unlock_event <$> gs) /\
      released_files (unlock_event <$> gs) = get_inode <$> yield_partials path /\
      Forall (fun g => not_held (NodeLock.inode (g_node g)) (g_fd g) (fs w3)) gs.
Proof.
  intros Hinit%init_inodes Henter.
  unfold PathLock.__enter__, bind at 1, PathLock.for_each in Henter.
  destruct (PathLock.for_locks _ (PathLock.locks pl) w) as [[r|e] [ls' w']] eqn:Hrun;
    [|done].
  injection Henter as <- <-.
  apply for_locks_enter in Hrun as (gs & Hgs & Hwaits & Hlog & Hheld).
  exists gs. split; [done|]. split; [done|]. split; [done|].
  assert (Hfiles : (NodeLock.inode ∘ g_node) <$> gs = get_inode <$> yield_partials path).
  { by rewrite <- Hinit, Hgs, <- list_fmap_compose. }
  split; [by rewrite acquired_files_trace|]. split; [done|].
  intros w2. destruct (for_locks_exit gs w2) as (w3 & Hexit & Hlog3 & Hall & _).
  exists w3. split; [|split; [done|split; [by rewrite released_files_unlock|done]]].
  unfold PathLock.__exit__, bind at 1, PathLock.for_each. cbn [PathLock.locks].
  rewrite Hheld, Hexit. reflexivity.
Qed.

(** ** The properties on the sample worlds *)



Lemma C3_successful_acquire_clears_abort_request_witness :
  NodeLock.abort_requested (plain_node, request_pending) =
    (Ok true, (plain_node, request_pending)) /\
  NodeLock.abort_requested
    (plain_node, (after_success plain_node request_pending).2) =
    (Ok false, (plain_node, (after_success plain_node request_pending).2)).
Proof.
  split; [reflexivity|].
  destruct (C3_successful_acquire_clears_abort_request
              plain_node request_pending
              (after_success plain_node request_pending).1
              (after_success plain_node request_pending).2) as (_ & Hclear & _).
  - vm_compute. reflexivity.
  - apply Hclear. reflexivity.
Defined.

(** C6, as the claim states it, fails on a node lock that was never
    entered: [self.lock] does not exist and [__exit__] raises. *)
Lemma C6_release_of_a_fresh_node_raises :
  (NodeLock.__exit__ (plain_node, quiet)).1 = Raise AttributeError.
Proof. reflexivity. Qed.

Lemma C6_release_after_attempt_does_not_raise_witness :
  (NodeLock.__enter__ (urgent_node, leaf_busy)).1 = Raise NodeLockedException /\
  (NodeLock.__exit__
     ((NodeLock.__enter__ (urgent_node, leaf_busy)).2.1, quiet)).1 = Ok tt.
Proof.
  split; [reflexivity|].
  destruct (C6_release_after_attempt_does_not_raise
              urgent_node leaf_busy
              (NodeLock.__enter__ (urgent_node, leaf_busy)).1
              (NodeLock.__enter__ (urgent_node, leaf_busy)).2.1
              (NodeLock.__enter__ (urgent_node, leaf_busy)).2.2) as [_ Hexit].
  - vm_compute. reflexivity.
  - apply Hexit.
Defined.

Lemma C8_construction_builds_one_node_per_prefix_witness :
  path_utils.yield_partials "/a/b/c/" = ["a"; "a/b"; "a/b/c"]%string /\
  PathLock.__init__ path_utils.yield_partials sample_get_inode "/a/b/c/"
    false true false 0 quiet = (Ok sample_path_lock, quiet).
Proof.
  split; [reflexivity|].
  destruct (C8_construction_builds_one_node_per_prefix
              path_utils.yield_partials sample_get_inode "/a/b/c/"
              false true false 0%Z quiet ["a"; "a/b"]%string "a/b/c"%string)
    as (pl & Hrun & Hlocks & _).
  - reflexivity.
  - rewrite Hrun. destruct pl as [ls]. cbn in Hlocks. rewrite Hlocks. reflexivity.
Defined.

Lemma C9_path_abort_requested_iff_some_node_witness :
  PathLock.abort_requested (sample_path_lock, request_pending) =
    (Ok true, (sample_path_lock, request_pending)).
Proof.
  destruct (C9_path_abort_requested_iff_some_node sample_path_lock request_pending)
    as (b & Hrun & Htrue & _).
  rewrite Hrun. f_equal. f_equal. apply Htrue.
  exists (NodeLock.__init__ 11 false 0 false). split; [|reflexivity].
  apply list_elem_of_here.
Defined.

Lemma C10_construction_leaves_the_world_unchanged_witness :
  (PathLock.__init__ path_utils.yield_partials sample_get_inode "/a/b/c"
     false true false 0 leaf_busy).2 = leaf_busy /\
  Forall (fun nl => NodeLock.lock nl = None) (PathLock.locks sample_path_lock).
Proof.
  destruct (C10_construction_leaves_the_world_unchanged
              path_utils.yield_partials sample_get_inode "/a/b/c"
              false true false 0%Z leaf_busy) as [Hworld Hlocks].
  split; [exact Hworld|].
  destruct (Hlocks sample_path_lock) as [Hnone _]; [reflexivity|exact Hnone].
Defined.

Lemma C5_root_to_leaf_acquisition_and_release_witness :
  acquired_files (log (PathLock.__enter__ (sample_path_lock, quiet)).2.2) = [11; 12; 13]%Z /\
  exists w3,
    (PathLock.__exit__ (PathLock.__enter__ (sample_path_lock, quiet)).2).2.2 = w3 /\
    released_files (log w3) = [11; 12; 13]%Z.
Proof.
  destruct (C5_root_to_leaf_acquisition_and_release
              path_utils.yield_partials sample_get_inode "/a/b/c"
              false true false 0%Z quiet quiet sample_path_lock quiet
              (PathLock.__enter__ (sample_path_lock, quiet)).2.1
              (PathLock.__enter__ (sample_path_lock, quiet)).2.2)
    as (gs & _ & _ & Hlog & Hacq & _ & Hexit).
  - reflexivity.
  - vm_compute. reflexivity.
  - split.
    + rewrite Hlog. cbn [log quiet app]. rewrite Hacq. reflexivity.
    + eexists. split; [reflexivity|]. vm_compute. reflexivity.
Defined.

(** C4 fails on the code.  [with PathLock("/a/b", inode_store):] while
    another process holds [a/b]: the node lock of [a] is acquired, the one
    of [a/b] raises, and the exception leaves the [with] statement with
    the handle on [a] still open and still holding its lock; nothing was
    unlocked. *)
Theorem C4_failed_acquisition_keeps_earlier_locks :
  PathLock.__init__ path_utils.yield_partials sample_get_inode "/a/b"
    false true false 0 leaf_busy = (Ok short_path_lock, leaf_busy) /\
  exists pl' w',
    PathLock.with_ (ret tt) (short_path_lock, leaf_busy) =
      (Raise NodeLockedException, (pl', w')) /\
    log w' = [EvAttempt 11 5 (Some 3); EvAttempt 12 6 None] /\
    portalocker.holders 11 (fs w') = [{| held_by := Here 3; held_ex := false |}] /\
    (fun nl => portalocker.fh <$> NodeLock.lock nl) <$> PathLock.locks pl' =
      [Some (Some 3); Some None].
Proof.
  split; [reflexivity|].
  eexists _, _. split; [vm_compute; reflexivity|].
  split; [reflexivity|]. split; reflexivity.
Qed.

(** * Further properties of the code *)

(** ** Acquisition: free resource, polling, retry bounds *)

Lemma wants_exclusive_flags nl :
  portalocker.wants_exclusive (NodeLock._get_flags nl) = NodeLock.exclusive nl.
Proof. unfold NodeLock._get_flags. by destruct (NodeLock.exclusive nl). Qed.

Lemma holders_after_success nl w f :
  portalocker.holders f (fs (after_success nl w).2) =
    if decide (f = NodeLock.inode nl)
    then portalocker.holders f (fs w) ++ [holder_of nl (next_fd w)]
    else portalocker.holders f (fs w).
Proof.
  unfold portalocker.holders at 1. cbn.
  destruct (decide (f = NodeLock.inode nl)) as [->|Hf].
  - rewrite lookup_insert_eq. cbn. unfold holder_of.
    by rewrite wants_exclusive_flags.
  - rewrite lookup_insert_ne by done. unfold portalocker.holders.
    destruct (lockdir (fs w)); cbn; [done|]. by rewrite lookup_empty.
Qed.

Lemma enter_poll_loop nl w :
  NodeLock.__enter__ (nl, w) =
    poll_loop nl (NodeLock.range (NodeLock.acquisition_max_retries nl)) w.
Proof. apply enter_step. Qed.

Lemma poll_loop_cons nl c cs w :
  blocked nl (fs w) = true ->
  poll_loop nl (c :: cs) w =
    poll_loop (after_failure nl w).1 cs (slept (after_failure nl w).2).
Proof.
  intros Hb. unfold poll_loop at 1. rewrite Hb.
  rewrite (surjective_pairing (after_failure nl w)) at 1.
  apply retry_loop_step.
Qed.

Lemma polling_set_lock l nl j w :
  polling (NodeLock.set_lock l nl) j w = polling nl j w.
Proof.
  revert w. induction j as [|j IH]; intros w; [done|].
  cbn [polling]. apply IH.
Qed.

Lemma polling_next_fd nl k : forall w, next_fd (polling nl k w) = next_fd w.
Proof.
  induction k as [|k IH]; intros w; [done|].
  cbn [polling]. by rewrite IH.
Qed.

Lemma poll_loop_first_free k : forall cs nl w,
  (k <= length cs)%nat ->
  (forall j, (j < k)%nat -> blocked nl (fs (polling nl j w)) = true) ->
  blocked nl (fs (polling nl k w)) = false ->
  exists nl',
    poll_loop nl cs w = (Ok tt, (nl', (after_success nl (polling nl k w)).2)) /\
    nl' = (after_success nl (polling nl k w)).1 /\
    log (polling nl k w) = log w ++ waiting_trace nl k /\
    clock (polling nl k w) = (clock w + k)%nat.
Proof.
  induction k as [|k IH]; intros cs nl w Hk Hbusy Hfree.
  - cbn in Hfree. unfold poll_loop. rewrite Hfree.
    eexists. split; [reflexivity|]. split; [done|]. cbn.
    rewrite app_nil_r. split; [done|lia].
  - destruct cs as [|c cs]; [cbn in Hk; lia|].
    rewrite poll_loop_cons by (apply (Hbusy 0%nat); lia).
    destruct (IH cs (after_failure nl w).1 (slept (after_failure nl w).2))
      as (nl' & Hrun & Hnl & Hlog & Hclock).
    + cbn in Hk. lia.
    + intros j Hj. cbn [after_failure fst]. rewrite polling_set_lock.
      apply (Hbusy (S j)). lia.
    + cbn [after_failure fst]. rewrite polling_set_lock. exact Hfree.
    + cbn [after_failure fst] in Hrun, Hnl, Hlog, Hclock.
      rewrite polling_set_lock in Hrun, Hnl, Hlog, Hclock.
      exists nl'. split; [exact Hrun|]. split; [exact Hnl|]. cbn [polling].
      split.
      * rewrite Hlog. cbn. unfold waiting_trace. cbn.
        by rewrite <- !app_assoc.
      * rewrite Hclock. cbn. lia.
Qed.



(** X2.  When the resource is held at the first [k] attempts and free at
    the next one, and [k] does not exceed [acquisition_max_retries],
    [__enter__] returns after exactly [k] failed attempts, each followed by
    a sleep of one second, and one successful attempt. *)
Theorem X2_lock_is_taken_at_the_first_free_poll nl w k :
  (Z.of_nat k <= NodeLock.acquisition_max_retries nl)%Z ->
  (forall j, (j < k)%nat -> blocked nl (fs (polling nl j w)) = true) ->
  blocked nl (fs (polling nl k w)) = false ->
  exists nl' w',
    NodeLock.__enter__ (nl, w) = (Ok tt, (nl', w')) /\
    log w' = log w ++ waiting_trace nl k ++ [granted_attempt nl (next_fd w)] /\
    clock w' = (clock w + k)%nat /\
    NodeLock.lock nl' =
      Some {| portalocker.filename := NodeLock.inode nl;
              portalocker.flags := NodeLock._get_flags nl;
              portalocker.fh := Some (next_fd w) |}.
Proof.
  intros Hk Hbusy Hfree. rewrite enter_poll_loop.
  destruct (poll_loop_first_free k
              (NodeLock.range (NodeLock.acquisition_max_retries nl)) nl w)
    as (nl' & Hrun & Hnl & Hlog & Hclock); [|done|done|].
  - rewrite range_length. lia.
  - eexists _, _. split; [exact Hrun|].
    subst nl'. cbn. rewrite Hlog, Hclock, <- app_assoc, polling_next_fd.
    by repeat split.
Qed.



(** ** Shared and exclusive node locks on one inode *)




(** ** What an attempt and a release leave alone *)

Lemma holders_after_failure nl w f :
  portalocker.holders f (fs (after_failure nl w).2) = portalocker.holders f (fs w).
Proof. reflexivity. Qed.

Lemma marker_after_failure nl w j :
  j <> NodeLock.inode nl ->
  os.marker_exists j (fs (after_failure nl w).2) = os.marker_exists j (fs w).
Proof.
  intros Hj. destruct w as [[ld ad] o n c l]. cbn.
  destruct (NodeLock.high_priority nl); [|done].
  rewrite marker_exists_post. by rewrite bool_decide_eq_false_2.
Qed.

Lemma marker_after_success nl w j :
  j <> NodeLock.inode nl ->
  os.marker_exists j (fs (after_success nl w).2) = os.marker_exists j (fs w).
Proof.
  intros Hj. destruct w as [[ld ad] o n c l]. cbn.
  rewrite (marker_exists_abortdir j _
             {| lockdir := ld;
                abortdir := (fun s => s ∖ {[ NodeLock.inode nl ]}) <$> ad |})
    by reflexivity.
  rewrite marker_exists_clear. by rewrite bool_decide_eq_false_2.
Qed.

(** X6.  A try-lock attempt of a node lock changes neither the holders of
    the lock file nor the abort-request marker of any other inode, and the
    release that follows it, in whatever world, leaves the holders of every
    other lock file as they are. *)
Theorem X6_attempt_and_release_touch_only_their_inode nl w j :
  j <> NodeLock.inode nl ->
  portalocker.holders j (fs (NodeLock._try_locking (nl, w)).2.2) =
    portalocker.holders j (fs w) /\
  os.marker_exists j (fs (NodeLock._try_locking (nl, w)).2.2) =
    os.marker_exists j (fs w) /\
  forall w2,
    portalocker.holders j
      (fs (NodeLock.__exit__ ((NodeLock._try_locking (nl, w)).2.1, w2)).2.2) =
    portalocker.holders j (fs w2).
Proof.
  intros Hj. rewrite try_locking_total.
  destruct (blocked nl (fs w)); cbn [fst snd].
  - split; [apply holders_after_failure|]. split; [by apply marker_after_failure|].
    reflexivity.
  - split; [|split; [by apply marker_after_success|]].
    + rewrite holders_after_success. by rewrite decide_False.
    + intros w2.
      change (NodeLock.__exit__ ((after_success nl w).1, w2))
        with (Ok tt, (released_node {| g_node := nl; g_fd := next_fd w; g_wait := [] |},
                      unlocked (NodeLock.inode nl) (next_fd w) w2)).
      cbn [snd]. rewrite holders_unlocked. by rewrite decide_False.
Qed.

(** ** Round trips of a node lock *)



(** X8.  Releasing a node lock twice is harmless: when [__exit__] has
    returned, a second [__exit__] returns as well and changes nothing. *)
Theorem X8_second_release_changes_nothing nl w :
  (NodeLock.__exit__ (nl, w)).1 = Ok tt ->
  NodeLock.__exit__ (NodeLock.__exit__ (nl, w)).2 =
    (Ok tt, (NodeLock.__exit__ (nl, w)).2).
Proof.
  unfold NodeLock.__exit__, NodeLock._unlock, NodeLock.on_lock,
    portalocker.release.
  destruct (NodeLock.lock nl) as [[file fl [fd|]]|] eqn:Hl; cbn;
    [reflexivity|reflexivity|discriminate].
Qed.

(** ** Lazily created directories *)


(** ** A path lock used out of order, or failing to enter *)

Lemma init_locks yield_partials get_inode path ex_path ex_leaf hp n w pl w' :
  PathLock.__init__ yield_partials get_inode path ex_path ex_leaf hp n w = (Ok pl, w') ->
  exists first rest,
    PathLock.locks pl = first :: rest /\ NodeLock.lock first = None.
Proof.
  unfold PathLock.__init__. rewrite foldl_append. cbn [app].
  destruct (last (yield_partials path)) as [leaf|]; [|done].
  intros [= <- _]. cbn [PathLock.locks].
  destruct (removelast (yield_partials path)) as [|p ps]; cbn; by eexists _, _.
Qed.

(** X10.  [__exit__] on a path lock that was built but never entered
    raises [AttributeError] at its first node lock and changes nothing. *)
Theorem X10_exit_without_enter_raises
    (yield_partials : string -> list string) (get_inode : string -> Z)
    path ex_path ex_leaf hp n w0 w0' pl :
  PathLock.__init__ yield_partials get_inode path ex_path ex_leaf hp n w0 = (Ok pl, w0') ->
  forall w, PathLock.__exit__ (pl, w) = (Raise AttributeError, (pl, w)).
Proof.
  intros (first & rest & Hls & Hnone)%init_locks w. destruct pl as [ls].
  cbn in Hls. subst ls.
  unfold PathLock.__exit__, bind at 1, PathLock.for_each.
  cbn [PathLock.locks PathLock.for_locks]. unfold bind at 1.
  unfold NodeLock.__exit__, NodeLock._unlock, NodeLock.on_lock.
  by rewrite Hnone.
Qed.

Lemma retry_loop_raise cs : forall nl w e s',
  NodeLock.retry_loop cs (after_failure nl w) = (Raise e, s') ->
  e = NodeLockedException /\
  s'.1 = (after_failure nl w).1 /\
  (exists tail,
     log s'.2 = log w ++ failed_attempt nl :: tail /\
     Forall (fun ev => ev = EvSleep 1 \/ ev = failed_attempt nl) tail) /\
  (NodeLock.high_priority nl = true ->
   os.marker_exists (NodeLock.inode nl) (fs s'.2) = true).
Proof.
  induction cs as [|c cs IH]; intros nl w e s'.
  - intros [= <- <-]. split; [done|]. split; [done|]. split.
    + exists []. by split.
    + intros Hhp. destruct w as [[ld ad] o n c l]. cbn. rewrite Hhp.
      rewrite marker_exists_post. by rewrite bool_decide_eq_true_2.
  - change (after_failure nl w)
      with ((after_failure nl w).1, (after_failure nl w).2) at 1.
    rewrite retry_loop_step.
    destruct (blocked _ (fs (slept (after_failure nl w).2))); [|done].
    intros (He & Hnl & (tail & Hlog & Htail) & Hm)%IH.
    split; [done|]. split; [done|]. split; [|exact Hm].
    exists (EvSleep 1 :: failed_attempt nl :: tail). split.
    + rewrite Hlog. cbn. by rewrite <- !app_assoc.
    + constructor; [by left|]. constructor; [by right|exact Htail].
Qed.

Lemma enter_raise nl w e s' :
  NodeLock.__enter__ (nl, w) = (Raise e, s') ->
  e = NodeLockedException /\
  s'.1 = (after_failure nl w).1 /\
  (exists tail,
     log s'.2 = log w ++ tail /\
     Forall (fun ev => ev = EvSleep 1 \/ ev = failed_attempt nl) tail) /\
  (NodeLock.high_priority nl = true ->
   os.marker_exists (NodeLock.inode nl) (fs s'.2) = true).
Proof.
  rewrite enter_step. destruct (blocked nl (fs w)); [|done].
  intros (He & Hnl & (tail & Hlog & Htail) & Hm)%retry_loop_raise.
  split; [done|]. split; [done|]. split; [|exact Hm].
  exists (failed_attempt nl :: tail). split; [done|].
  constructor; [by right|exact Htail].
Qed.

Lemma for_locks_enter_raise ls : forall w e ls' w',
  PathLock.for_locks (A := unit) (NodeLock.__enter__ ;; ret None) ls w =
    (Raise e, (ls', w')) ->
  e = NodeLockedException /\
  exists gs bad rest tail,
    ls = (g_node <$> gs) ++ bad :: rest /\
    ls' = (held_node <$> gs) ++ (after_failure bad w).1 :: rest /\
    Forall waits_only gs /\
    log w' = log w ++ concat (grant_trace <$> gs) ++ tail /\
    Forall (fun ev => ev = EvSleep 1 \/ ev = failed_attempt bad) tail /\
    (NodeLock.high_priority bad = true ->
     os.marker_exists (NodeLock.inode bad) (fs w') = true).
Proof.
  induction ls as [|l rest IH]; intros w e ls' w'; [done|].
  cbn [PathLock.for_locks]. unfold bind at 1.
  destruct (NodeLock.__enter__ (l, w)) as [[[]|e1] [l1 w1]] eqn:Hl.
  - cbn. destruct (PathLock.for_locks _ rest w1) as [r2 [rest2 w2]] eqn:Hrest.
    intros [= -> <- <-].
    apply enter_granted in Hl as (g & Hg & Hwait & Hlog & Hheld).
    apply IH in Hrest as (He & gs & bad & rest' & tail & Hls & Hls' & Hwaits
                          & Hlogs & Htail & Hm).
    split; [done|]. exists (g :: gs), bad, rest', tail. cbn in *. subst.
    split; [done|]. split; [done|]. split; [by constructor|].
    split; [|by split]. rewrite Hlogs, Hlog. by rewrite <- !app_assoc.
  - intros [= <- <- <-].
    apply enter_raise in Hl as (He & Hnl & (tail & Hlog & Htail) & Hm).
    split; [done|]. exists [], l, rest, tail. cbn in *. by subst.
Qed.

Lemma acquired_files_waiting nl tail :
  Forall (fun ev => ev = EvSleep 1 \/ ev = failed_attempt nl) tail ->
  acquired_files tail = [] /\ released_files tail = [].
Proof.
  induction 1 as [|ev tail [-> | ->] _ [IH1 IH2]]; by cbn.
Qed.

Lemma released_files_trace gs :
  Forall waits_only gs -> released_files (concat (grant_trace <$> gs)) = [].
Proof.
  induction 1 as [|g gs Hg _ IH]; [done|].
  cbn [fmap list_fmap concat]. unfold released_files in *.
  rewrite omap_app, IH. unfold grant_trace. rewrite omap_app.
  destruct (acquired_files_waiting _ _ Hg) as [_ Hrel].
  unfold released_files in Hrel. by rewrite Hrel.
Qed.

(** X11.  When [PathLock.__enter__] raises, it raises
    [NodeLockedException]; the node locks before the failing one keep the
    file handles they got, the failing one has a lock object without
    handle, the ones after it were not touched; the log shows the locks
    taken on the earlier inodes, in order, and no unlock. *)
Theorem X11_failed_enter_keeps_what_it_took pl w e pl' w' :
  PathLock.__enter__ (pl, w) = (Raise e, (pl', w')) ->
  e = NodeLockedException /\
  exists gs bad rest new,
    PathLock.locks pl = (g_node <$> gs) ++ bad :: rest /\
    PathLock.locks pl' =
      (held_node <$> gs) ++
      NodeLock.set_lock
        (portalocker.Lock_init (NodeLock.inode bad) (NodeLock._get_flags bad)) bad
      :: rest /\
    log w' = log w ++ new /\
    acquired_files new = (NodeLock.inode ∘ g_node) <$> gs /\
    released_files new = [].
Proof.
  unfold PathLock.__enter__, bind at 1, PathLock.for_each.
  destruct (PathLock.for_locks _ (PathLock.locks pl) w) as [[r|e1] [ls' w1]] eqn:Hrun;
    [done|].
  intros [= <- <- <-].
  apply for_locks_enter_raise in Hrun
    as (He & gs & bad & rest & tail & Hls & Hls' & Hwaits & Hlog & Htail & _).
  split; [done|].
  exists gs, bad, rest, (concat (grant_trace <$> gs) ++ tail).
  split; [done|]. split; [done|]. split; [done|].
  destruct (acquired_files_waiting _ _ Htail) as [Hacq Hrel].
  unfold acquired_files, released_files in *. rewrite !omap_app, Hacq, Hrel.
  rewrite !app_nil_r. split.
  - by apply acquired_files_trace.
  - by apply released_files_trace.
Qed.



(** ** A path lock without contention *)



Lemma grants_from_length n0 ls : length (grants_from n0 ls) = length ls.
Proof.
  revert n0. induction ls as [|l rest IH]; intros n0; [done|].
  cbn. by rewrite IH.
Qed.










(** ** Unwinding by hand after a failure *)

Lemma for_locks_exit_app gs : forall tl w,
  exists w',
    log w' = log w ++ (unlock_event <$> gs) /\
    PathLock.for_locks (A := unit) (NodeLock.__exit__ ;; ret None)
      ((held_node <$> gs) ++ tl) w =
      (let '(r, (tl', w'')) :=
         PathLock.for_locks (A := unit) (NodeLock.__exit__ ;; ret None) tl w' in
       (r, ((released_node <$> gs) ++ tl', w''))).
Proof.
  induction gs as [|g gs IH]; intros tl w.
  - exists w. cbn. rewrite app_nil_r. split; [done|].
    by destruct (PathLock.for_locks _ tl w) as [r [tl' w'']].
  - cbn [fmap list_fmap app PathLock.for_locks]. unfold bind at 1.
    rewrite exit_held. cbn [ret].
    destruct (IH tl (unlocked (NodeLock.inode (g_node g)) (g_fd g) w))
      as (w' & Hlog & Hrun).
    exists w'. split.
    + rewrite Hlog. cbn. by rewrite <- app_assoc.
    + rewrite Hrun.
      by destruct (PathLock.for_locks _ tl w') as [r [tl' w'']].
Qed.

Lemma exit_after_failure nl w w2 :
  NodeLock.__exit__ ((after_failure nl w).1, w2) =
    (Ok tt, ((after_failure nl w).1, w2)).
Proof. reflexivity. Qed.

(** X15.  After [PathLock.__enter__] has raised on a path lock whose
    node locks had never been entered, calling [__exit__] by hand releases
    the node locks that were taken, in order; it then returns when the
    failing node lock was the last one, and raises [AttributeError] at the
    first node lock after the failing one otherwise. *)
Theorem X15_exit_after_a_failed_enter pl w e pl' w' :
  PathLock.__enter__ (pl, w) = (Raise e, (pl', w')) ->
  Forall (fun nl => NodeLock.lock nl = None) (PathLock.locks pl) ->
  exists gs bad rest,
    PathLock.locks pl = (g_node <$> gs) ++ bad :: rest /\
    forall w2, exists pl2 w3,
      PathLock.__exit__ (pl', w2) =
        (match rest with [] => Ok tt | _ :: _ => Raise AttributeError end,
         (pl2, w3)) /\
      log w3 = log w2 ++ (unlock_event <$> gs).
Proof.
  unfold PathLock.__enter__, bind at 1, PathLock.for_each.
  destruct (PathLock.for_locks _ (PathLock.locks pl) w) as [[r|e1] [ls' w1]] eqn:Hrun;
    [done|].
  intros [= <- <- <-] Hnone.
  apply for_locks_enter_raise in Hrun
    as (_ & gs & bad & rest & tail & Hls & Hls' & _).
  exists gs, bad, rest. split; [exact Hls|]. intros w2.
  destruct (for_locks_exit_app gs ((after_failure bad w).1 :: rest) w2)
    as (w3 & Hlog & Hexit).
  unfold PathLock.__exit__, bind at 1, PathLock.for_each.
  cbn [PathLock.locks]. rewrite Hls', Hexit.
  cbn [PathLock.for_locks]. unfold bind at 1.
  rewrite exit_after_failure. cbn [ret].
  destruct rest as [|next rest].
  - cbn. by eexists _, _.
  - assert (Hnext : NodeLock.lock next = None).
    { rewrite Hls in Hnone. apply Forall_app in Hnone as [_ Hnone].
      apply Forall_cons in Hnone as [_ Hnone].
      by apply Forall_cons in Hnone as [Hnone _]. }
    cbn [PathLock.for_locks]. unfold bind at 1.
    unfold NodeLock.__exit__ at 1, NodeLock._unlock, NodeLock.on_lock.
    rewrite Hnext. cbn. by eexists _, _.
Qed.

(** X16.  A try-lock attempt that fails leaves the holders of every lock
    file as they are and the node lock with a lock object that has no file
    handle; releasing the node lock afterwards, in whatever world, returns
    and changes nothing. *)
Theorem X16_failed_attempt_disturbs_no_holder nl w nl' w' :
  NodeLock._try_locking (nl, w) = (Ok false, (nl', w')) ->
  (forall f, portalocker.holders f (fs w') = portalocker.holders f (fs w)) /\
  NodeLock.lock nl' =
    Some (portalocker.Lock_init (NodeLock.inode nl) (NodeLock._get_flags nl)) /\
  forall w2, NodeLock.__exit__ (nl', w2) = (Ok tt, (nl', w2)).
Proof.
  rewrite try_locking_total. destruct (blocked nl (fs w)); [|done].
  intros Heq.
  assert (nl' = (after_failure nl w).1) as -> by (by injection Heq).
  assert (w' = (after_failure nl w).2) as -> by (by injection Heq).
  split; [intros f; apply holders_after_failure|]. split; [done|].
  intros w2. apply exit_after_failure.
Qed.

(** ** The further properties on the sample worlds *)


Lemma X2_lock_is_taken_at_the_first_free_poll_witness :
  blocked urgent_node (fs leaf_released_soon) = true /\
  exists nl' w',
    NodeLock.__enter__ (urgent_node, leaf_released_soon) = (Ok tt, (nl', w')) /\
    log w' = [EvAttempt 12 6 None; EvSleep 1; EvAttempt 12 6 (Some 3)] /\
    clock w' = 1%nat.
Proof.
  split; [reflexivity|].
  destruct (X2_lock_is_taken_at_the_first_free_poll urgent_node leaf_released_soon 1)
    as (nl' & w' & Hrun & Hlog & Hclock & _).
  - vm_compute. discriminate.
  - intros j Hj. destruct j as [|j]; [reflexivity|lia].
  - reflexivity.
  - exists nl', w'. split; [exact Hrun|]. split; [exact Hlog|exact Hclock].
Defined.




Lemma X6_attempt_and_release_touch_only_their_inode_witness :
  portalocker.holders 12 (fs (NodeLock._try_locking (plain_node, leaf_busy)).2.2) =
    [{| held_by := Elsewhere; held_ex := true |}].
Proof.
  destruct (X6_attempt_and_release_touch_only_their_inode plain_node leaf_busy 12)
    as [Hholders _]; [vm_compute; discriminate|].
  rewrite Hholders. reflexivity.
Defined.


Lemma X8_second_release_changes_nothing_witness :
  NodeLock.__exit__
    (NodeLock.__exit__ (after_success plain_node quiet)).2 =
  (Ok tt, (NodeLock.__exit__ (after_success plain_node quiet)).2).
Proof.
  apply (X8_second_release_changes_nothing
           (after_success plain_node quiet).1 (after_success plain_node quiet).2).
  reflexivity.
Defined.

Lemma X10_exit_without_enter_raises_witness :
  PathLock.__exit__ (sample_path_lock, leaf_busy) =
    (Raise AttributeError, (sample_path_lock, leaf_busy)).
Proof.
  apply (X10_exit_without_enter_raises
           path_utils.yield_partials sample_get_inode "/a/b/c"
           false true false 0%Z quiet quiet sample_path_lock).
  reflexivity.
Defined.

Lemma X11_failed_enter_keeps_what_it_took_witness :
  (PathLock.__enter__ (short_path_lock, leaf_busy)).1 = Raise NodeLockedException /\
  released_files (log (PathLock.__enter__ (short_path_lock, leaf_busy)).2.2) = [].
Proof.
  split; [reflexivity|].
  destruct (X11_failed_enter_keeps_what_it_took
              short_path_lock leaf_busy NodeLockedException
              (PathLock.__enter__ (short_path_lock, leaf_busy)).2.1
              (PathLock.__enter__ (short_path_lock, leaf_busy)).2.2)
    as (_ & gs & bad & rest & new & _ & _ & Hlog & _ & Hrel).
  - vm_compute. reflexivity.
  - rewrite Hlog. exact Hrel.
Defined.






Lemma X15_exit_after_a_failed_enter_witness :
  (PathLock.__exit__
     ((PathLock.__enter__ (short_path_lock, leaf_busy)).2.1, quiet)).1 = Ok tt /\
  exists w,
    (PathLock.__enter__ (sample_path_lock, w)).1 = Raise NodeLockedException /\
    (PathLock.__exit__
       ((PathLock.__enter__ (sample_path_lock, w)).2.1, quiet)).1 = Raise AttributeError.
Proof.
  split.
  - destruct (X15_exit_after_a_failed_enter
                short_path_lock leaf_busy NodeLockedException
                (PathLock.__enter__ (short_path_lock, leaf_busy)).2.1
                (PathLock.__enter__ (short_path_lock, leaf_busy)).2.2)
      as (gs & bad & rest & Hls & _).
    + vm_compute. reflexivity.
    + repeat constructor.
    + reflexivity.
  - exists leaf_busy. split; reflexivity.
Defined.

Lemma X16_failed_attempt_disturbs_no_holder_witness :
  portalocker.holders 12 (fs (after_failure urgent_node leaf_busy).2) =
    [{| held_by := Elsewhere; held_ex := true |}] /\
  NodeLock.__exit__ ((after_failure urgent_node leaf_busy).1, quiet) =
    (Ok tt, ((after_failure urgent_node leaf_busy).1, quiet)).
Proof.
  destruct (X16_failed_attempt_disturbs_no_holder
              urgent_node leaf_busy
              (after_failure urgent_node leaf_busy).1
              (after_failure urgent_node leaf_busy).2)
    as (Hholders & _ & Hexit).
  - vm_compute. reflexivity.
  - split; [by rewrite Hholders|apply Hexit].
Defined.
